(** * Serialization codecs of rapidcheck (include/rapidcheck/detail/Serialization.h)

    The header declares the fixed-width codec ([serialize] / [deserialize]),
    the compact 7-bit-group codec ([serializeCompact] / [deserializeCompact])
    and the compact range codec (the range overloads of the same names).
    Their template bodies live in [Serialization.hpp], which is included at the
    end of the header; they are modelled below from the specification of the
    codecs.

    Conventions of the model:
    - a byte is an [N] below 256, a byte stream is a [list N];
    - an integral type [T] is described by [sizeof(T)] and its signedness;
    - decoding results are [Ok] or [Fail] with the error kind, the
      counterpart of throwing [SerializationException];
    - a read cursor is the remaining list of bytes; a decode returns the
      bytes it did not consume. *)

From Stdlib Require Import NArith ZArith List Lia Bool.
Import ListNotations.

(** ** Integral types *)

Record IntType := mkIntType { sizeofT : nat; isSigned : bool }.

Definition uint8 : IntType := mkIntType 1 false.
Definition int8 : IntType := mkIntType 1 true.
Definition uint16 : IntType := mkIntType 2 false.
Definition uint32 : IntType := mkIntType 4 false.
Definition int32 : IntType := mkIntType 4 true.
Definition uint64 : IntType := mkIntType 8 false.
Definition int64 : IntType := mkIntType 8 true.
(** [std::size_t], the type of the element count of a compact range. *)
Definition size_t : IntType := uint64.

(** Bit width [W = 8 * sizeof(T)]. *)
Definition bitWidth (T : IntType) : nat := 8 * sizeofT T.

Definition minValue (T : IntType) : Z :=
  if isSigned T then - 2 ^ (Z.of_nat (bitWidth T) - 1) else 0.

Definition maxValue (T : IntType) : Z :=
  if isSigned T then 2 ^ (Z.of_nat (bitWidth T) - 1) - 1
  else 2 ^ Z.of_nat (bitWidth T) - 1.

(** [v] is a value of [T]. *)
Definition inRange (T : IntType) (v : Z) : bool :=
  (minValue T <=? v)%Z && (v <=? maxValue T)%Z.

(** ** Errors: the cause carried by a [SerializationException] *)

Inductive SerializationError := Truncated | Overflow.

Inductive Result (A : Type) : Type :=
| Ok (a : A)
| Fail (e : SerializationError).
Arguments Ok {A} a.
Arguments Fail {A} e.

Definition bindResult {A B} (m : Result A) (k : A -> Result B) : Result B :=
  match m with
  | Ok a => k a
  | Fail e => Fail e
  end.

Notation "' p <- m ;; k" := (bindResult m (fun x => match x with p => k end))
  (at level 60, p pattern, right associativity).

Definition Bytes := list N.

Definition isByte (b : N) : bool := (b <? 256)%N.

(** ** Fixed-width codec *)

(** Byte [i] of the little-endian encoding: bits [[8i, 8i+8)] of [value]
    (two's complement bits for a negative value). *)
Definition serializeByte (value : Z) (i : nat) : N :=
  Z.to_N (Z.land (Z.shiftr value (8 * Z.of_nat i)) 255).

(** Modelled from the spec: the body of [serialize] (Serialization.hpp, not in
    src/). It writes [sizeof(T)] bytes, least-significant byte first, byte [i]
    holding bits [[8i, 8i+8)] of the value. The result is the list of bytes
    appended to the output iterator. *)
Definition serialize (T : IntType) (value : Z) : Bytes :=
  map (serializeByte value) (seq 0 (sizeofT T)).

(** Reading [n] more bytes, the next one being byte [i]; the value is
    accumulated as [sum byte[i] << (8*i)]. Running out of input is
    [Truncated]. *)
Fixpoint deserializeLoop (n i : nat) (acc : Z) (bs : Bytes) : Result (Z * Bytes) :=
  match n with
  | O => Ok (acc, bs)
  | S n' =>
      match bs with
      | [] => Fail Truncated
      | b :: rest =>
          deserializeLoop n' (S i) (acc + Z.shiftl (Z.of_N b) (8 * Z.of_nat i))%Z rest
      end
  end.

(** Storing the reconstructed [W]-bit pattern into [T]: for a signed [T] the
    pattern is read in two's complement. *)
Definition fromBits (T : IntType) (u : Z) : Z :=
  if isSigned T && (2 ^ (Z.of_nat (bitWidth T) - 1) <=? u)%Z
  then (u - 2 ^ Z.of_nat (bitWidth T))%Z
  else u.

(** Modelled from the spec: the body of [deserialize] (Serialization.hpp, not
    in src/). It reads exactly [sizeof(T)] bytes and reconstructs the value as
    [sum byte[i] << (8*i)]; with fewer bytes it fails with [Truncated] and
    consumes nothing. On success the bytes after the consumed ones are
    returned. *)
Definition deserialize (T : IntType) (bs : Bytes) : Result (Z * Bytes) :=
  ' (u, rest) <- deserializeLoop (sizeofT T) 0 0 bs ;;
  Ok (fromBits T u, rest).

(** ** Compact (7-bit group) codec *)

(** One iteration of the encoding loop per group: take the low 7 bits,
    shift right by 7, and set the continuation bit when bits remain. [fuel]
    bounds the number of iterations; [serializeCompact] gives enough of it
    ([compactGroups_fuel] below). *)
Fixpoint compactGroups (fuel : nat) (uvalue : N) : Bytes :=
  match fuel with
  | O => []
  | S fuel' =>
      let x := N.land uvalue 127 in
      let rest := N.shiftr uvalue 7 in
      if (rest =? 0)%N then [x] else N.lor x 128 :: compactGroups fuel' rest
  end.

(** Modelled from the spec: the body of [serializeCompact] (Serialization.hpp,
    not in src/), the encoding algorithm of a non-negative integer: repeat
    taking the low 7 bits and shifting right by 7, with the continuation bit
    set while bits remain; at least one byte is emitted. The spec states the
    algorithm for non-negative values only and leaves negative values open,
    so the value is an [N]. *)
Definition serializeCompact (value : N) : Bytes :=
  compactGroups (S (N.size_nat value)) value.

(** The group-count bound [ceil(W/7) + 1]. *)
Definition maxGroups (T : IntType) : nat := (bitWidth T + 6) / 7 + 1.

(** The decoding state machine [Reading(g, acc)]: input exhausted is
    [Truncated]; reading a group beyond the bound is [Overflow]; a byte with
    the continuation bit clear ends the decode. *)
Fixpoint compactLoop (maxg g : nat) (acc : N) (bs : Bytes) : Result (N * Bytes) :=
  match bs with
  | [] => Fail Truncated
  | b :: rest =>
      if maxg <=? g then Fail Overflow
      else
        let acc' := N.lor acc (N.shiftl (N.land b 127) (N.of_nat (7 * g))) in
        if (N.land b 128 =? 0)%N then Ok (acc', rest)
        else compactLoop maxg (S g) acc' rest
  end.

(** Modelled from the spec: the body of [deserializeCompact] (Serialization.hpp,
    not in src/). The accumulator is unbounded; once the decode is done, a
    value that does not fit in [T] (bits set beyond the value bits of [T]) is
    [Overflow]. *)
Definition deserializeCompact (T : IntType) (bs : Bytes) : Result (N * Bytes) :=
  ' (acc, rest) <- compactLoop (maxGroups T) 0 0 bs ;;
  if (Z.of_N acc <=? maxValue T)%Z then Ok (acc, rest) else Fail Overflow.

(** ** Compact range codec *)

(** Modelled from the spec: the body of the range overload of
    [serializeCompact] (Serialization.hpp, not in src/): the element count,
    compact-encoded as a [std::size_t], then each element compact-encoded in
    order. *)
Definition serializeCompactRange (xs : list N) : Bytes :=
  serializeCompact (N.of_nat (length xs)) ++ flat_map serializeCompact xs.

(** Decoding [n] elements of [T] one after the other, each pushed to the
    output; the first failing element aborts the decode. *)
Fixpoint deserializeCompactN (T : IntType) (n : nat) (bs : Bytes)
  : Result (Bytes * list N) :=
  match n with
  | O => Ok (bs, [])
  | S n' =>
      ' (x, rest) <- deserializeCompact T bs ;;
      ' (rest', xs) <- deserializeCompactN T n' rest ;;
      Ok (rest', x :: xs)
  end.

(** Modelled from the spec: the body of the range overload of
    [deserializeCompact] (Serialization.hpp, not in src/): decode the length
    prefix [k] as a [std::size_t], then [k] elements of [T]. The result pairs
    the unconsumed input with the produced elements, as the pair of iterators
    of the C++ function. *)
Definition deserializeCompactRange (T : IntType) (bs : Bytes)
  : Result (Bytes * list N) :=
  ' (k, rest) <- deserializeCompact size_t bs ;;
  deserializeCompactN T (N.to_nat k) rest.

(** ** Fixed-count sequences *)

Section SequenceN.
Context {A : Type}.
(** The element codec the caller picks: an encoder and a decoder that
    returns the value and the unconsumed bytes. *)
Variable enc : A -> Bytes.
Variable dec : Bytes -> Result (A * Bytes).

(** Modelled from the spec: the body of [serializeN] (Serialization.hpp, not
    in src/): the first [n] elements of the input, each encoded by the element
    codec, one after the other, with no length marker. The input must hold
    [n] elements (the C++ loop reads past the input iterator otherwise); the
    model stops at the end of the list. *)
Fixpoint serializeN (xs : list A) (n : nat) : Bytes :=
  match n, xs with
  | O, _ => []
  | S n', x :: xs' => enc x ++ serializeN xs' n'
  | S _, [] => []
  end.

(** Modelled from the spec: the body of [deserializeN] (Serialization.hpp, not
    in src/): decode [n] elements one after the other, each pushed to the
    output as soon as it is decoded. The result pairs what was pushed to the
    output with the outcome: the unconsumed bytes, or the error of the first
    failing element decode; elements pushed before a failure stay pushed. *)
Fixpoint deserializeN (bs : Bytes) (n : nat) : list A * Result Bytes :=
  match n with
  | O => ([], Ok bs)
  | S n' =>
      match dec bs with
      | Fail e => ([], Fail e)
      | Ok (x, rest) => let (out, r) := deserializeN rest n' in (x :: out, r)
      end
  end.

End SequenceN.

(** * Fixed-width codec: properties *)

Section FixedWidth.

Lemma nth_serialize (T : IntType) (value : Z) (i : nat) :
  (i < sizeofT T)%nat ->
  nth i (serialize T value) 0%N = serializeByte value i.
Proof.
  intros Hi. unfold serialize.
  rewrite nth_indep with (d' := serializeByte value 0) by (rewrite length_map, length_seq; exact Hi).
  rewrite map_nth, seq_nth by exact Hi. reflexivity.
Qed.

Lemma serializeByte_mod (value : Z) (i : nat) :
  Z.of_N (serializeByte value i) = ((value / 2 ^ (8 * Z.of_nat i)) mod 2 ^ 8)%Z.
Proof.
  unfold serializeByte.
  change 255%Z with (Z.ones 8).
  rewrite Z.land_ones, Z.shiftr_div_pow2 by lia.
  rewrite Z2N.id; [reflexivity|].
  apply Z.mod_pos_bound; lia.
Qed.

(** Reading back the bytes [i .. i+n-1] of [value] adds the bits
    [[8i, 8(i+n))] of [value] to the accumulator. *)
Lemma deserializeLoop_serialize (value : Z) (n i : nat) (acc : Z) (rest : Bytes) :
  deserializeLoop n i acc (map (serializeByte value) (seq i n) ++ rest) =
  Ok ((acc + (value mod 2 ^ (8 * Z.of_nat (i + n)) - value mod 2 ^ (8 * Z.of_nat i)))%Z, rest).
Proof.
  revert i acc. induction n as [|n IH]; intros i acc;
    cbn [deserializeLoop map seq app].
  - rewrite Nat.add_0_r, Z.sub_diag, Z.add_0_r. reflexivity.
  - rewrite IH. do 2 f_equal.
    rewrite Z.shiftl_mul_pow2 by lia.
    rewrite serializeByte_mod.
    replace (8 * Z.of_nat (S i))%Z with (8 * Z.of_nat i + 8)%Z by lia.
    rewrite Z.pow_add_r by lia.
    rewrite (Z.rem_mul_r value (2 ^ (8 * Z.of_nat i)) (2 ^ 8)) by (try (apply Z.pow_nonzero); lia).
    replace (i + S n)%nat with (S i + n)%nat by lia.
    lia.
Qed.

Lemma deserializeLoop_short (n i : nat) (acc : Z) (bs : Bytes) :
  (length bs < n)%nat -> deserializeLoop n i acc bs = Fail Truncated.
Proof.
  revert n i acc. induction bs as [|b bs IH]; intros n i acc Hlen.
  - destruct n; [simpl in Hlen; lia | reflexivity].
  - destruct n as [|n]; [simpl in Hlen; lia|].
    simpl. apply IH. simpl in Hlen. lia.
Qed.

Lemma fromBits_mod (T : IntType) (value : Z) :
  inRange T value = true ->
  fromBits T (value mod 2 ^ Z.of_nat (bitWidth T)) = value.
Proof.
  unfold inRange, fromBits, minValue, maxValue.
  destruct (isSigned T); simpl; intros H; apply andb_prop in H as [H1 H2];
    apply Z.leb_le in H1, H2.
  - destruct (bitWidth T) as [|w] eqn:Hw.
    + simpl in H1, H2. lia.
    + replace (Z.of_nat (S w)) with (Z.of_nat w + 1)%Z in * by lia.
      replace (Z.of_nat w + 1 - 1)%Z with (Z.of_nat w) in * by lia.
      rewrite Z.pow_add_r by lia.
      assert (Hp : (0 < 2 ^ Z.of_nat w)%Z) by (apply Z.pow_pos_nonneg; lia).
      destruct (Z.leb_spec 0 value) as [Hv|Hv].
      * rewrite Z.mod_small by lia.
        destruct (Z.leb_spec (2 ^ Z.of_nat w) value); lia.
      * rewrite <- (Z.mod_unique value (2 ^ Z.of_nat w * 2 ^ 1) (-1) (value + 2 ^ Z.of_nat w * 2)) by lia.
        destruct (Z.leb_spec (2 ^ Z.of_nat w) (value + 2 ^ Z.of_nat w * 2)); lia.
  - apply Z.mod_small. lia.
Qed.

End FixedWidth.

(** ** C6 *)

(** C6: [serialize] writes exactly [sizeof(T)] bytes in little-endian order:
    bit [j] of byte [i] is bit [8i + j] of the value for [j < 8], and the
    higher bits of the byte are clear; [serialize<uint32>(300)] is
    [[0x2C; 0x01; 0x00; 0x00]]. *)
Theorem serialize_little_endian_layout (T : IntType) (value : Z) :
  length (serialize T value) = sizeofT T /\
  (forall (i : nat) (j : Z), (i < sizeofT T)%nat -> (0 <= j)%Z ->
     Z.testbit (Z.of_N (nth i (serialize T value) 0%N)) j =
     ((j <? 8)%Z && Z.testbit value (8 * Z.of_nat i + j))) /\
  serialize uint32 300 = [44; 1; 0; 0]%N.
Proof.
  split; [|split].
  - unfold serialize. now rewrite length_map, length_seq.
  - intros i j Hi Hj.
    rewrite nth_serialize by exact Hi. unfold serializeByte.
    rewrite Z2N.id by (apply Z.land_nonneg; right; lia).
    change 255%Z with (Z.ones 8).
    rewrite Z.land_spec, Z.shiftr_spec, Z.testbit_ones_nonneg by lia.
    rewrite andb_comm, (Z.add_comm j). reflexivity.
  - reflexivity.
Qed.

Lemma serialize_little_endian_layout_witness :
  length (serialize uint32 300) = 4%nat /\
  Z.testbit (Z.of_N (nth 1 (serialize uint32 300) 0%N)) 0 = Z.testbit 300 8.
Proof.
  destruct (serialize_little_endian_layout uint32 300) as [Hl [Hb _]].
  split; [exact Hl|].
  rewrite (Hb 1%nat 0%Z) by (simpl; lia).
  reflexivity.
Defined.

(** ** C7 *)

(** C7: on an input with fewer than [sizeof(T)] bytes, of any such length
    including zero, [deserialize] fails with [Truncated]. *)
Theorem deserialize_truncated (T : IntType) (bs : Bytes) :
  (length bs < sizeofT T)%nat -> deserialize T bs = Fail Truncated.
Proof.
  intros Hlen. unfold deserialize.
  rewrite deserializeLoop_short by exact Hlen. reflexivity.
Qed.

Lemma deserialize_truncated_witness :
  (length [1; 2; 3]%N < sizeofT uint32)%nat /\
  deserialize uint32 [1; 2; 3]%N = Fail Truncated.
Proof.
  split; [cbv; lia|].
  apply deserialize_truncated. cbv; lia.
Defined.

(** ** C2 *)

(** C2: for every value of [T], [deserialize] applied to the encoding of the
    value followed by any further bytes yields the value and leaves exactly
    the further bytes: it consumes the [sizeof(T)] bytes of the encoding. *)
Theorem deserialize_serialize (T : IntType) (value : Z) (rest : Bytes) :
  inRange T value = true ->
  length (serialize T value) = sizeofT T /\
  deserialize T (serialize T value ++ rest) = Ok (value, rest).
Proof.
  intros Hr. split.
  - unfold serialize. now rewrite length_map, length_seq.
  - unfold deserialize, serialize.
    rewrite deserializeLoop_serialize. cbn [bindResult].
    replace (0 + (value mod 2 ^ (8 * Z.of_nat (0 + sizeofT T)) -
                  value mod 2 ^ (8 * Z.of_nat 0)))%Z
      with (value mod 2 ^ Z.of_nat (bitWidth T))%Z.
    + rewrite fromBits_mod by exact Hr. reflexivity.
    + unfold bitWidth. rewrite Nat2Z.inj_mul, Nat.add_0_l.
      change (2 ^ (8 * Z.of_nat 0))%Z with 1%Z. rewrite Z.mod_1_r. lia.
Qed.

Lemma deserialize_serialize_witness :
  inRange int32 (-5) = true /\
  deserialize int32 (serialize int32 (-5) ++ [7%N]) = Ok ((-5)%Z, [7%N]).
Proof.
  split; [reflexivity|].
  apply (deserialize_serialize int32 (-5) [7%N]). reflexivity.
Defined.

(** * Compact codec: properties *)

(** Arithmetic with division by a constant, as in [ceil(n/7)]. *)
Ltac div_lia := zify; Z.div_mod_to_equations; lia.

Module Groups.

(** The number of groups [max(1, ceil(bit_length(v) / 7))], [N.size] being the
    bit length. *)
Definition ngroups (v : N) : N := N.max 1 ((N.size v + 6) / 7).

Lemma size_shiftr7 (v : N) :
  N.shiftr v 7 <> 0%N -> N.size (N.shiftr v 7) = (N.size v - 7)%N.
Proof.
  intros Hr.
  assert (Hv : v <> 0%N) by (intros ->; apply Hr; reflexivity).
  assert (H7 : (7 <= N.log2 v)%N).
  { destruct (N.le_gt_cases 7 (N.log2 v)) as [H|H]; [exact H|].
    exfalso. apply Hr. apply N.shiftr_eq_0. exact H. }
  rewrite !N.size_log2 by assumption.
  rewrite N.log2_shiftr. lia.
Qed.

Lemma size_small (v : N) : N.shiftr v 7 = 0%N -> (N.size v <= 7)%N.
Proof.
  intros Hr. destruct (N.eq_dec v 0) as [->|Hv]; [cbv; congruence|].
  apply N.shiftr_eq_0_iff in Hr as [->|[_ Hl]]; [cbv; congruence|].
  rewrite N.size_log2 by exact Hv. lia.
Qed.

(** With enough fuel, the encoder emits [ngroups v] bytes. *)
Lemma compactGroups_length (fuel : nat) (v : N) :
  (ngroups v <= N.of_nat fuel)%N ->
  N.of_nat (length (compactGroups fuel v)) = ngroups v.
Proof.
  unfold ngroups. revert v.
  induction fuel as [|fuel IH]; intros v Hf; [lia|].
  cbn [compactGroups].
  destruct (N.eqb_spec (N.shiftr v 7) 0) as [Hr|Hr].
  - apply size_small in Hr. simpl length. div_lia.
  - assert (H8 : (8 <= N.size v)%N).
    { destruct (N.le_gt_cases 8 (N.size v)) as [H|H]; [exact H|].
      exfalso. apply Hr. apply N.shiftr_eq_0.
      destruct (N.eq_dec v 0) as [->|Hv]; [cbv; congruence|].
      rewrite N.size_log2 in H by exact Hv. lia. }
    cbn [length]. rewrite Nat2N.inj_succ, IH; rewrite size_shiftr7 by exact Hr.
    + div_lia.
    + rewrite Nat2N.inj_succ in Hf. div_lia.
Qed.

Lemma pos_size_nat (p : positive) : Pos.size_nat p = Pos.to_nat (Pos.size p).
Proof.
  induction p as [p IH|p IH|]; cbn [Pos.size_nat Pos.size];
    try rewrite Pos2Nat.inj_succ; lia.
Qed.

Lemma ngroups_fuel (v : N) : (ngroups v <= N.of_nat (S (N.size_nat v)))%N.
Proof.
  assert (Hs : N.size v = N.of_nat (N.size_nat v)).
  { destruct v as [|p]; [reflexivity|].
    simpl. rewrite pos_size_nat. lia. }
  unfold ngroups. rewrite Hs. div_lia.
Qed.

Lemma serializeCompact_length (v : N) :
  N.of_nat (length (serializeCompact v)) = ngroups v.
Proof.
  apply compactGroups_length, ngroups_fuel.
Qed.

End Groups.

(** * Compact codec: decoding the groups of the encoder *)

Module Decode.
Import Groups.

Lemma testbit_127 (n : N) : N.testbit 127 n = (n <? 7)%N.
Proof.
  change 127%N with (N.ones 7).
  destruct (N.ltb_spec n 7).
  - apply N.ones_spec_low. exact H.
  - apply N.ones_spec_high. exact H.
Qed.

Lemma testbit_128 (n : N) : N.testbit 128 n = (7 =? n)%N.
Proof. change 128%N with (2 ^ 7)%N. apply N.pow2_bits_eqb. Qed.

(** A value is its low group and the rest shifted back by 7. *)
Lemma split_group (v : N) :
  v = N.lor (N.land v 127) (N.shiftl (N.shiftr v 7) 7).
Proof.
  apply N.bits_inj. intros n.
  rewrite N.lor_spec, N.land_spec, testbit_127.
  destruct (N.ltb_spec n 7) as [H|H].
  - rewrite N.shiftl_spec_low by exact H. now rewrite andb_true_r, orb_false_r.
  - rewrite N.shiftl_spec_high' by exact H. rewrite N.shiftr_spec'.
    replace (n - 7 + 7)%N with n by lia. now rewrite andb_false_r.
Qed.

Lemma payload_continued (v : N) :
  N.land (N.lor (N.land v 127) 128) 127 = N.land v 127.
Proof.
  apply N.bits_inj. intros n.
  rewrite !N.land_spec, N.lor_spec, N.land_spec, testbit_127, testbit_128.
  destruct (N.ltb_spec n 7), (N.eqb_spec 7 n); try lia;
    destruct (N.testbit v n); reflexivity.
Qed.

Lemma flag_continued (v : N) :
  N.land (N.lor (N.land v 127) 128) 128 = 128%N.
Proof.
  apply N.bits_inj. intros n.
  rewrite N.land_spec, N.lor_spec, N.land_spec, testbit_127, testbit_128.
  destruct (N.ltb_spec n 7), (N.eqb_spec 7 n); try lia;
    destruct (N.testbit v n); reflexivity.
Qed.

Lemma flag_last (v : N) : N.land (N.land v 127) 128 = 0%N.
Proof.
  apply N.bits_inj. intros n.
  rewrite N.land_spec, N.land_spec, testbit_127, testbit_128, N.bits_0.
  destruct (N.ltb_spec n 7), (N.eqb_spec 7 n); try lia;
    destruct (N.testbit v n); reflexivity.
Qed.

Lemma payload_last (v : N) :
  N.shiftr v 7 = 0%N -> N.land (N.land v 127) 127 = v.
Proof.
  intros Hr. rewrite <- N.land_assoc, N.land_diag.
  rewrite (split_group v) at 2. rewrite Hr. simpl. now rewrite N.lor_0_r.
Qed.

Lemma ngroups_shiftr (v : N) :
  N.shiftr v 7 <> 0%N -> ngroups v = N.succ (ngroups (N.shiftr v 7)).
Proof.
  intros Hr. unfold ngroups. rewrite size_shiftr7 by exact Hr.
  assert (H8 : (8 <= N.size v)%N).
  { destruct (N.le_gt_cases 8 (N.size v)) as [H|H]; [exact H|].
    exfalso. apply Hr. apply N.shiftr_eq_0.
    destruct (N.eq_dec v 0) as [->|Hv]; [cbv; congruence|].
    rewrite N.size_log2 in H by exact Hv. lia. }
  div_lia.
Qed.

(** Decoding, from group [g] on, the bytes the encoder emits for [v] adds
    [v << 7g] to the accumulator, provided the group bound is not reached. *)
Lemma compactLoop_groups (fuel : nat) (v : N) (maxg g : nat) (acc : N) (rest : Bytes) :
  (ngroups v <= N.of_nat fuel)%N ->
  (g + length (compactGroups fuel v) <= maxg)%nat ->
  compactLoop maxg g acc (compactGroups fuel v ++ rest) =
  Ok (N.lor acc (N.shiftl v (N.of_nat (7 * g))), rest).
Proof.
  revert v g acc.
  induction fuel as [|fuel IH]; intros v g acc Hf Hg.
  { unfold ngroups in Hf. lia. }
  cbn [compactGroups] in *.
  destruct (N.eqb_spec (N.shiftr v 7) 0) as [Hr|Hr].
  - cbn [app compactLoop length] in *.
    destruct (Nat.leb_spec maxg g); [lia|].
    rewrite flag_last, payload_last by exact Hr. reflexivity.
  - cbn [app compactLoop length] in *.
    destruct (Nat.leb_spec maxg g); [lia|].
    rewrite flag_continued. cbn [N.eqb Pos.eqb].
    rewrite ngroups_shiftr in Hf by exact Hr.
    rewrite IH by lia.
    rewrite payload_continued.
    assert (Hv : N.shiftl v (N.of_nat (7 * g)) =
      N.lor (N.shiftl (N.land v 127) (N.of_nat (7 * g)))
            (N.shiftl (N.shiftr v 7) (N.of_nat (7 * S g)))).
    { rewrite (split_group v) at 1.
      rewrite N.shiftl_lor, N.shiftl_shiftl. do 2 f_equal. lia. }
    rewrite Hv, N.lor_assoc. reflexivity.
Qed.

End Decode.

Lemma maxValue_lt_pow (T : IntType) :
  (maxValue T < 2 ^ Z.of_nat (bitWidth T))%Z.
Proof.
  unfold maxValue. destruct (isSigned T).
  - destruct (bitWidth T) as [|w]; [simpl; lia|].
    replace (Z.of_nat (S w)) with (Z.of_nat w + 1)%Z by lia.
    replace (Z.of_nat w + 1 - 1)%Z with (Z.of_nat w) by lia.
    rewrite Z.pow_add_r by lia.
    assert (0 < 2 ^ Z.of_nat w)%Z by (apply Z.pow_pos_nonneg; lia). lia.
  - lia.
Qed.

(** A non-negative value of [T] needs at most [ceil(W/7)] groups. *)
Lemma ngroups_le_maxGroups (T : IntType) (v : N) :
  (Z.of_N v <= maxValue T)%Z ->
  (Groups.ngroups v <= N.of_nat (maxGroups T))%N.
Proof.
  intros Hv.
  assert (Hlt : (v < 2 ^ N.of_nat (bitWidth T))%N).
  { apply N2Z.inj_lt. rewrite N2Z.inj_pow, nat_N_Z.
    pose proof (maxValue_lt_pow T). lia. }
  assert (Hs : (N.size v <= N.of_nat (bitWidth T))%N).
  { destruct (N.eq_dec v 0) as [->|H0]; [simpl; lia|].
    rewrite N.size_log2 by exact H0.
    apply N.log2_lt_pow2 in Hlt; lia. }
  unfold Groups.ngroups, maxGroups.
  rewrite Nat2N.inj_add, Nat2N.inj_div, Nat2N.inj_add.
  generalize dependent (N.of_nat (bitWidth T)). intros w _ Hs.
  change (N.of_nat 6) with 6%N. change (N.of_nat 7) with 7%N.
  change (N.of_nat 1) with 1%N. div_lia.
Qed.

(** ** C1 *)

(** C1: for every type [T] and every value of [T] the compact encoder takes
    (a non-negative one), decoding its compact encoding, followed by any
    further bytes, succeeds with the value and leaves the further bytes. *)
Theorem deserializeCompact_serializeCompact (T : IntType) (value : N) (rest : Bytes) :
  (Z.of_N value <= maxValue T)%Z ->
  deserializeCompact T (serializeCompact value ++ rest) = Ok (value, rest).
Proof.
  intros Hv. unfold deserializeCompact, serializeCompact.
  rewrite Decode.compactLoop_groups.
  - cbn [bindResult]. rewrite N.lor_0_l, N.shiftl_0_r.
    apply Z.leb_le in Hv. rewrite Hv. reflexivity.
  - apply Groups.ngroups_fuel.
  - pose proof (Groups.serializeCompact_length value) as Hl.
    unfold serializeCompact in Hl.
    pose proof (ngroups_le_maxGroups T value Hv). lia.
Qed.

Lemma deserializeCompact_serializeCompact_witness :
  (Z.of_N 300 <= maxValue uint32)%Z /\
  deserializeCompact uint32 ([172; 2]%N ++ [5%N]) = Ok (300%N, [5%N]).
Proof.
  split; [cbv; congruence|].
  change [172; 2]%N with (serializeCompact 300).
  apply deserializeCompact_serializeCompact. cbv; congruence.
Defined.

(** ** C4 *)

(** C4: the compact encoding of [v] has [max(1, ceil(bit_length(v) / 7))]
    bytes, [N.size v] being the bit length of [v]; the value 0 encodes as the
    single byte [0x00]. *)
Theorem serializeCompact_minimal_length (value : N) :
  N.of_nat (length (serializeCompact value)) = N.max 1 ((N.size value + 6) / 7) /\
  serializeCompact 0 = [0%N].
Proof.
  split.
  - apply Groups.serializeCompact_length.
  - reflexivity.
Qed.

Lemma deserializeCompactN_elements (T : IntType) (xs : list N) (rest : Bytes) :
  Forall (fun x => (Z.of_N x <= maxValue T)%Z) xs ->
  deserializeCompactN T (length xs) (flat_map serializeCompact xs ++ rest) =
  Ok (rest, xs).
Proof.
  induction 1 as [|x xs Hx Hxs IH]; [reflexivity|].
  cbn [length flat_map deserializeCompactN].
  rewrite <- app_assoc, deserializeCompact_serializeCompact by exact Hx.
  cbn [bindResult]. rewrite IH. reflexivity.
Qed.

(** ** C3 *)

(** C3: for every list of values of [T] (non-negative, as the compact
    encoder takes them), including the empty list, whose length fits the
    [std::size_t] count, decoding the compact range encoding, followed by any
    further bytes, reproduces the list in order and leaves the further bytes.
    The encoding is the compact count followed by the compact elements:
    [[1; 2; 300]] encodes to [[0x03; 0x01; 0x02; 0xAC; 0x02]], which decodes
    back to [[1; 2; 300]]. *)
Theorem deserializeCompactRange_serializeCompactRange
    (T : IntType) (xs : list N) (rest : Bytes) :
  Forall (fun x => (Z.of_N x <= maxValue T)%Z) xs ->
  (Z.of_nat (length xs) <= maxValue size_t)%Z ->
  deserializeCompactRange T (serializeCompactRange xs ++ rest) = Ok (rest, xs) /\
  serializeCompactRange [1; 2; 300]%N = [3; 1; 2; 172; 2]%N /\
  deserializeCompactRange uint32 [3; 1; 2; 172; 2]%N = Ok ([], [1; 2; 300]%N).
Proof.
  intros Hxs Hlen. split; [|split; reflexivity].
  unfold deserializeCompactRange, serializeCompactRange.
  rewrite <- app_assoc, deserializeCompact_serializeCompact
    by (rewrite nat_N_Z; exact Hlen).
  cbn [bindResult]. rewrite Nat2N.id.
  apply deserializeCompactN_elements. exact Hxs.
Qed.

Lemma deserializeCompactRange_serializeCompactRange_witness :
  Forall (fun x => (Z.of_N x <= maxValue uint32)%Z) [1; 2; 300]%N /\
  deserializeCompactRange uint32 (serializeCompactRange [1; 2; 300]%N ++ [])
    = Ok ([], [1; 2; 300]%N).
Proof.
  assert (H : Forall (fun x => (Z.of_N x <= maxValue uint32)%Z) [1; 2; 300]%N)
    by (repeat constructor; cbv; congruence).
  split; [exact H|].
  apply (deserializeCompactRange_serializeCompactRange uint32 [1; 2; 300]%N []).
  - exact H.
  - cbv; congruence.
Defined.

(** * Compact codec: failures *)

Module Failures.

(** The accumulated value of a run of groups starting at group [g]:
    [sum (b_i & 0x7F) << 7(g+i)]. *)
Fixpoint groupsValueFrom (g : nat) (bs : Bytes) : N :=
  match bs with
  | [] => 0%N
  | b :: rest =>
      N.lor (N.shiftl (N.land b 127) (N.of_nat (7 * g))) (groupsValueFrom (S g) rest)
  end.

Definition groupsValue (bs : Bytes) : N := groupsValueFrom 0 bs.

(** A byte with the continuation bit (bit 7) set. *)
Definition continued (b : N) : Prop := N.testbit b 7 = true.

Lemma flag_testbit (b : N) :
  N.land b 128 = (if N.testbit b 7 then 128 else 0)%N.
Proof.
  apply N.bits_inj. intros n.
  rewrite N.land_spec, Decode.testbit_128.
  destruct (N.eqb_spec 7 n) as [<-|Hn].
  - destruct (N.testbit b 7); reflexivity.
  - rewrite andb_false_r.
    destruct (N.testbit b 7); [rewrite Decode.testbit_128|rewrite N.bits_0];
      [symmetry; apply N.eqb_neq; exact Hn|reflexivity].
Qed.

Lemma flag_set (b : N) : continued b -> (N.land b 128 =? 0)%N = false.
Proof. unfold continued. intros H. rewrite flag_testbit, H. reflexivity. Qed.

Lemma flag_clear (b : N) : N.testbit b 7 = false -> (N.land b 128 =? 0)%N = true.
Proof. intros H. rewrite flag_testbit, H. reflexivity. Qed.

(** A run of continued bytes only: the input runs out ([Truncated]) unless
    the group bound is hit first ([Overflow]). *)
Lemma compactLoop_continued (maxg g : nat) (acc : N) (cs : Bytes) :
  Forall continued cs -> (g <= maxg)%nat ->
  compactLoop maxg g acc cs =
  if (g + length cs <=? maxg)%nat then Fail Truncated else Fail Overflow.
Proof.
  intros Hcs. revert g acc.
  induction Hcs as [|c cs Hc Hcs IH]; intros g acc Hg; cbn [compactLoop length].
  - destruct (Nat.leb_spec (g + 0) maxg); [reflexivity|lia].
  - destruct (Nat.leb_spec maxg g) as [H|H].
    + destruct (Nat.leb_spec (g + S (length cs)) maxg); [lia|reflexivity].
    + rewrite flag_set by exact Hc. rewrite IH by lia.
      replace (S g + length cs)%nat with (g + S (length cs))%nat by lia.
      reflexivity.
Qed.

(** A run of continued bytes ended by a byte with the continuation bit
    clear: the accumulated value, unless the group bound is hit first. *)
Lemma compactLoop_terminated (maxg g : nat) (acc : N) (cs : Bytes) (t : N) (rest : Bytes) :
  Forall continued cs -> N.testbit t 7 = false ->
  compactLoop maxg g acc (cs ++ t :: rest) =
  if (g + length cs <? maxg)%nat
  then Ok (N.lor acc (groupsValueFrom g (cs ++ [t])), rest)
  else Fail Overflow.
Proof.
  intros Hcs Ht. revert g acc.
  induction Hcs as [|c cs Hc Hcs IH]; intros g acc; cbn [compactLoop length app groupsValueFrom].
  - rewrite Nat.add_0_r, flag_clear by exact Ht.
    destruct (Nat.leb_spec maxg g), (Nat.ltb_spec g maxg); try lia; [reflexivity|].
    cbn [groupsValueFrom]. rewrite N.lor_0_r. reflexivity.
  - destruct (Nat.leb_spec maxg g) as [H|H].
    + destruct (Nat.ltb_spec (g + S (length cs)) maxg); [lia|reflexivity].
    + rewrite flag_set by exact Hc. rewrite IH.
      replace (S g + length cs)%nat with (g + S (length cs))%nat by lia.
      destruct (g + S (length cs) <? maxg)%nat; [|reflexivity].
      rewrite N.lor_assoc. reflexivity.
Qed.

(** The bound: after [maxg] continued groups from group [g], the next byte
    is not read. *)
Lemma compactLoop_bound (maxg g : nat) (acc : N) (cs : Bytes) (b : N) (rest : Bytes) :
  Forall continued cs -> (g + length cs = maxg)%nat ->
  compactLoop maxg g acc (cs ++ b :: rest) = Fail Overflow.
Proof.
  intros Hcs. revert g acc.
  induction Hcs as [|c cs Hc Hcs IH]; intros g acc Hg; cbn [compactLoop length app] in *.
  - destruct (Nat.leb_spec maxg g); [reflexivity|lia].
  - destruct (Nat.leb_spec maxg g); [reflexivity|].
    rewrite flag_set by exact Hc. apply IH. lia.
Qed.

End Failures.

(** ** C5 *)

(** C5, counterexample: every byte of [[0x80; 0x80; 0x80; 0x80]], the last one
    included, has the continuation bit set, yet decoding it as a [uint8]
    fails with [Overflow], not [Truncated]: the bound of
    [ceil(8/7) + 1 = 3] groups is reached before the input runs out. *)
Lemma deserializeCompact_truncation_counterexample :
  Forall (fun b => isByte b = true /\ Failures.continued b) [128; 128; 128; 128]%N /\
  deserializeCompact uint8 [128; 128; 128; 128]%N = Fail Overflow /\
  deserializeCompact uint8 [128; 128; 128; 128]%N <> Fail Truncated.
Proof.
  split; [repeat constructor|split; [reflexivity|discriminate]].
Qed.

(** C5, amended: a stream whose bytes all have the continuation bit set
    fails with [Truncated] when it has at most [ceil(W/7) + 1] bytes, and with
    [Overflow] when it is longer; a stream of continued bytes ended by a byte
    with the continuation bit clear, whose accumulated value does not fit in
    [T], fails with [Overflow], whatever follows it. *)
Theorem deserializeCompact_truncated_overflow (T : IntType) (cs : Bytes) :
  Forall Failures.continued cs ->
  deserializeCompact T cs =
    (if (length cs <=? maxGroups T)%nat then Fail Truncated else Fail Overflow) /\
  (forall (t : N) (rest : Bytes), N.testbit t 7 = false ->
     (maxValue T < Z.of_N (Failures.groupsValue (cs ++ [t])))%Z ->
     deserializeCompact T (cs ++ t :: rest) = Fail Overflow).
Proof.
  intros Hcs. split.
  - unfold deserializeCompact.
    rewrite Failures.compactLoop_continued by (exact Hcs || lia).
    rewrite Nat.add_0_l.
    destruct (length cs <=? maxGroups T)%nat; reflexivity.
  - intros t rest Ht Hbig. unfold deserializeCompact.
    rewrite Failures.compactLoop_terminated by assumption.
    destruct (0 + length cs <? maxGroups T)%nat; [|reflexivity].
    cbn [bindResult]. rewrite N.lor_0_l.
    unfold Failures.groupsValue in Hbig.
    destruct (Z.leb_spec (Z.of_N (Failures.groupsValueFrom 0 (cs ++ [t]))) (maxValue T));
      [lia|reflexivity].
Qed.

Lemma deserializeCompact_truncated_overflow_witness :
  deserializeCompact uint8 [128; 128]%N = Fail Truncated /\
  deserializeCompact uint8 ([128] ++ [2])%N = Fail Overflow.
Proof.
  assert (Hcs : Forall Failures.continued [128%N]) by (repeat constructor).
  assert (Hcs2 : Forall Failures.continued [128; 128]%N) by (repeat constructor).
  split.
  - exact (proj1 (deserializeCompact_truncated_overflow uint8 [128; 128]%N Hcs2)).
  - apply (proj2 (deserializeCompact_truncated_overflow uint8 [128%N] Hcs));
      vm_compute; reflexivity.
Defined.

(** ** C8 *)

(** C8, counterexample: for [uint8] the bound is [ceil(8/7) + 1 = 3] groups;
    the three continued bytes [[0x80; 0x80; 0x80]] would require reading a
    fourth group, yet decoding them fails with [Truncated], not [Overflow]:
    the input runs out before the bound is exceeded. *)
Lemma deserializeCompact_group_bound_counterexample :
  maxGroups uint8 = 3%nat /\
  Forall (fun b => isByte b = true /\ Failures.continued b) [128; 128; 128]%N /\
  deserializeCompact uint8 [128; 128; 128]%N = Fail Truncated.
Proof.
  split; [reflexivity|split; [repeat constructor|reflexivity]].
Qed.

(** C8, amended: after [ceil(W/7) + 1] bytes with the continuation bit set,
    a further byte is not read: whatever it and the rest of the input are,
    the decode fails with [Overflow]; when the input ends right after those
    bytes, the decode fails with [Truncated]. *)
Theorem deserializeCompact_group_bound (T : IntType) (cs : Bytes) :
  Forall Failures.continued cs -> length cs = maxGroups T ->
  (forall (b : N) (rest : Bytes), deserializeCompact T (cs ++ b :: rest) = Fail Overflow) /\
  deserializeCompact T cs = Fail Truncated.
Proof.
  intros Hcs Hlen. split.
  - intros b rest. unfold deserializeCompact.
    rewrite Failures.compactLoop_bound by (exact Hcs || lia). reflexivity.
  - unfold deserializeCompact.
    rewrite Failures.compactLoop_continued by (exact Hcs || lia).
    destruct (Nat.leb_spec (0 + length cs) (maxGroups T)); [reflexivity|lia].
Qed.

Lemma deserializeCompact_group_bound_witness :
  deserializeCompact uint8 ([128; 128; 128] ++ 0 :: [])%N = Fail Overflow /\
  deserializeCompact uint8 [128; 128; 128]%N = Fail Truncated.
Proof.
  assert (Hcs : Forall Failures.continued [128; 128; 128]%N) by (repeat constructor).
  destruct (deserializeCompact_group_bound uint8 [128; 128; 128]%N Hcs eq_refl)
    as [Hb Ht].
  split; [apply Hb|exact Ht].
Defined.

(** * Fixed-count sequences: properties *)

Section SequenceNProps.
Context {A : Type}.
Variable enc : A -> Bytes.
Variable dec : Bytes -> Result (A * Bytes).
(** The values the element codec round-trips. *)
Variable P : A -> Prop.
Hypothesis dec_enc : forall x rest, P x -> dec (enc x ++ rest) = Ok (x, rest).

Lemma deserializeN_serializeN_gen (xs : list A) (n : nat) (rest : Bytes) :
  (n <= length xs)%nat -> Forall P (firstn n xs) ->
  deserializeN dec (serializeN enc xs n ++ rest) n = (firstn n xs, Ok rest).
Proof.
  revert xs. induction n as [|n IH]; intros xs Hn HP; [destruct xs; reflexivity|].
  destruct xs as [|x xs]; [simpl in Hn; lia|].
  cbn [serializeN deserializeN firstn] in *. inversion HP; subst.
  rewrite <- app_assoc, dec_enc by assumption.
  rewrite IH by (simpl in Hn; (lia || assumption)). reflexivity.
Qed.

End SequenceNProps.

Lemma deserializeLoop_long (n i : nat) (acc : Z) (bs : Bytes) :
  (n <= length bs)%nat ->
  exists u, deserializeLoop n i acc bs = Ok (u, skipn n bs).
Proof.
  revert i acc bs. induction n as [|n IH]; intros i acc bs Hn; [eexists; reflexivity|].
  destruct bs as [|b bs]; [simpl in Hn; lia|].
  cbn [deserializeLoop skipn]. apply IH. simpl in Hn. lia.
Qed.

Lemma deserialize_long (T : IntType) (bs : Bytes) :
  (sizeofT T <= length bs)%nat ->
  exists v, deserialize T bs = Ok (v, skipn (sizeofT T) bs).
Proof.
  intros H. destruct (deserializeLoop_long (sizeofT T) 0 0 bs H) as [u Hu].
  exists (fromBits T u). unfold deserialize. rewrite Hu. reflexivity.
Qed.

Lemma serializeN_length (T : IntType) (xs : list Z) (n : nat) :
  (n <= length xs)%nat ->
  length (serializeN (serialize T) xs n) = (n * sizeofT T)%nat.
Proof.
  revert xs. induction n as [|n IH]; intros xs Hn; [destruct xs; reflexivity|].
  destruct xs as [|x xs]; [simpl in Hn; lia|].
  cbn [serializeN]. rewrite length_app, IH by (simpl in Hn; lia).
  unfold serialize. rewrite length_map, length_seq. lia.
Qed.

(** ** X1 *)

(** X1: [serializeN] over the fixed-width codec writes exactly
    [n * sizeof(T)] bytes for [n] elements: no length marker is stored. *)
Theorem serializeN_fixed_length (T : IntType) (xs : list Z) (n : nat) :
  (n <= length xs)%nat ->
  length (serializeN (serialize T) xs n) = (n * sizeofT T)%nat.
Proof. apply serializeN_length. Qed.

Lemma serializeN_fixed_length_witness :
  length (serializeN (serialize uint32) [1; 2; 3]%Z 2) = 8%nat.
Proof. apply (serializeN_fixed_length uint32 [1; 2; 3]%Z 2). simpl; lia. Defined.

(** ** X2 *)

(** X2: [deserializeN] of [n] fixed-width elements, applied to what
    [serializeN] wrote for the first [n] values of [T] of a list, followed by
    any further bytes, pushes exactly those [n] values in order and leaves the
    further bytes. *)
Theorem deserializeN_serializeN_fixed (T : IntType) (xs : list Z) (n : nat) (rest : Bytes) :
  (n <= length xs)%nat -> Forall (fun v => inRange T v = true) (firstn n xs) ->
  deserializeN (deserialize T) (serializeN (serialize T) xs n ++ rest) n =
  (firstn n xs, Ok rest).
Proof.
  apply deserializeN_serializeN_gen.
  intros x r Hx. apply (deserialize_serialize T x r Hx).
Qed.

Lemma deserializeN_serializeN_fixed_witness :
  deserializeN (deserialize int32) (serializeN (serialize int32) [-1; 7; 9]%Z 2 ++ [4%N]) 2 =
  ([-1; 7]%Z, Ok [4%N]).
Proof.
  apply (deserializeN_serializeN_fixed int32 [-1; 7; 9]%Z 2 [4%N]).
  - simpl; lia.
  - repeat constructor.
Defined.

(** ** X3 *)



(** ** X4 *)

(** X4: decoding [n + m] elements is decoding [n] elements and then [m]
    elements from where the first decode stopped; a failure among the first
    [n] stops the decode with the elements pushed so far. *)
Theorem deserializeN_add {A : Type} (dec : Bytes -> Result (A * Bytes))
    (bs : Bytes) (n m : nat) :
  deserializeN dec bs (n + m) =
  let (out1, r1) := deserializeN dec bs n in
  match r1 with
  | Ok rest => let (out2, r2) := deserializeN dec rest m in (out1 ++ out2, r2)
  | Fail e => (out1, Fail e)
  end.
Proof.
  revert bs. induction n as [|n IH]; intros bs; cbn [deserializeN Nat.add].
  - destruct (deserializeN dec bs m). reflexivity.
  - destruct (dec bs) as [[x rest]|e]; [|reflexivity].
    rewrite IH. destruct (deserializeN dec rest n) as [out1 [rest1|e]]; [|reflexivity].
    destruct (deserializeN dec rest1 m). reflexivity.
Qed.

(** ** X5 *)

(** X5: [deserializeN] of [n] fixed-width elements on an input shorter than
    [n * sizeof(T)] bytes fails with [Truncated], after pushing the elements
    whose bytes are all present: [length input / sizeof(T)] of them. *)
Theorem deserializeN_fixed_truncated (T : IntType) (bs : Bytes) (n : nat) :
  (length bs < n * sizeofT T)%nat ->
  snd (deserializeN (deserialize T) bs n) = Fail Truncated /\
  length (fst (deserializeN (deserialize T) bs n)) = (length bs / sizeofT T)%nat.
Proof.
  revert bs. induction n as [|n IH]; intros bs Hlen; [simpl in Hlen; lia|].
  cbn [deserializeN].
  destruct (Nat.lt_ge_cases (length bs) (sizeofT T)) as [Hs|Hs].
  - rewrite deserialize_truncated by exact Hs. split; [reflexivity|].
    rewrite Nat.div_small by exact Hs. reflexivity.
  - destruct (deserialize_long T bs Hs) as [v Hv]. rewrite Hv.
    assert (Hrest : (length (skipn (sizeofT T) bs) < n * sizeofT T)%nat)
      by (rewrite length_skipn; simpl in Hlen; lia).
    destruct (IH _ Hrest) as [Hr Hl].
    destruct (deserializeN (deserialize T) (skipn (sizeofT T) bs) n) as [out r].
    cbn [fst snd] in *. split; [exact Hr|].
    rewrite length_skipn in Hl. cbn [length]. rewrite Hl.
    assert (Hpos : sizeofT T <> 0%nat) by (simpl in Hlen; lia).
    replace (length bs) with (length bs - sizeofT T + 1 * sizeofT T)%nat at 2 by lia.
    rewrite Nat.div_add by exact Hpos. lia.
Qed.

Lemma deserializeN_fixed_truncated_witness :
  snd (deserializeN (deserialize uint16) [1; 0; 2; 0; 3]%N 3) = Fail Truncated /\
  length (fst (deserializeN (deserialize uint16) [1; 0; 2; 0; 3]%N 3)) = 2%nat.
Proof.
  exact (deserializeN_fixed_truncated uint16 [1; 0; 2; 0; 3]%N 3
           ltac:(simpl; lia)).
Defined.

Lemma low_group_lt (v : N) : (N.land v 127 < 128)%N.
Proof.
  change 127%N with (N.ones 7). rewrite N.land_ones.
  apply N.mod_lt. discriminate.
Qed.

Lemma continued_group (v : N) :
  (N.lor (N.land v 127) 128 < 256)%N /\ N.testbit (N.lor (N.land v 127) 128) 7 = true.
Proof.
  split.
  - rewrite <- N.lxor_lor by apply Decode.flag_last.
    rewrite <- N.add_nocarry_lxor by apply Decode.flag_last.
    pose proof (low_group_lt v). lia.
  - rewrite N.lor_spec, Decode.testbit_128, orb_true_r. reflexivity.
Qed.

Lemma compactGroups_shape (fuel : nat) (v : N) :
  (Groups.ngroups v <= N.of_nat fuel)%N ->
  exists init last, compactGroups fuel v = init ++ [last] /\
    Forall (fun b => (b < 256)%N /\ N.testbit b 7 = true) init /\ (last < 128)%N.
Proof.
  revert v. induction fuel as [|fuel IH]; intros v Hf.
  { unfold Groups.ngroups in Hf. lia. }
  cbn [compactGroups].
  destruct (N.eqb_spec (N.shiftr v 7) 0) as [Hr|Hr].
  - exists [], (N.land v 127). split; [reflexivity|split; [constructor|apply low_group_lt]].
  - rewrite Decode.ngroups_shiftr in Hf by exact Hr.
    destruct (IH (N.shiftr v 7)) as (init & last & Heq & Hinit & Hlast); [lia|].
    exists (N.lor (N.land v 127) 128 :: init), last.
    rewrite Heq. split; [reflexivity|split; [constructor; [apply continued_group|exact Hinit]|exact Hlast]].
Qed.

(** ** X6 *)

(** X6: the compact encoding of any value is self-terminating: every byte but
    the last has the continuation bit set, the last byte is below [0x80]
    (continuation bit clear), and every byte is below 256. *)
Theorem serializeCompact_continuation_bits (value : N) :
  exists init last, serializeCompact value = init ++ [last] /\
    Forall (fun b => (b < 256)%N /\ N.testbit b 7 = true) init /\ (last < 128)%N.
Proof. apply compactGroups_shape, Groups.ngroups_fuel. Qed.

Lemma size_le_bitWidth (T : IntType) (v : N) :
  (Z.of_N v <= maxValue T)%Z -> (N.size v <= N.of_nat (bitWidth T))%N.
Proof.
  intros Hv.
  assert (Hlt : (v < 2 ^ N.of_nat (bitWidth T))%N).
  { apply N2Z.inj_lt. rewrite N2Z.inj_pow, nat_N_Z.
    pose proof (maxValue_lt_pow T). lia. }
  destruct (N.eq_dec v 0) as [->|H0]; [simpl; lia|].
  rewrite N.size_log2 by exact H0.
  apply N.log2_lt_pow2 in Hlt; lia.
Qed.

(** ** X7 *)

(** X7: for a type [T] of [W = 8 * sizeof(T)] bits, the compact encoding of
    a (non-negative) value of [T] takes at most [ceil(W/7)] bytes; the
    largest [uint32] takes 5 bytes, one more than its fixed-width encoding. *)
Theorem serializeCompact_length_le (T : IntType) (value : N) :
  (1 <= sizeofT T)%nat -> (Z.of_N value <= maxValue T)%Z ->
  (length (serializeCompact value) <= (bitWidth T + 6) / 7)%nat /\
  length (serializeCompact (2 ^ 32 - 1)) = 5%nat /\
  length (serialize uint32 (2 ^ 32 - 1)) = 4%nat.
Proof.
  intros HT Hv. split; [|split; reflexivity].
  pose proof (Groups.serializeCompact_length value) as Hl.
  pose proof (size_le_bitWidth T value Hv) as Hs.
  unfold Groups.ngroups in Hl. unfold bitWidth in *.
  enough (H : (N.of_nat (length (serializeCompact value)) <=
                N.of_nat ((8 * sizeofT T + 6) / 7))%N) by lia.
  rewrite Nat2N.inj_div, Nat2N.inj_add, Nat2N.inj_mul.
  rewrite Nat2N.inj_mul in Hs.
  change (N.of_nat 8) with 8%N in *. change (N.of_nat 6) with 6%N.
  change (N.of_nat 7) with 7%N.
  assert (H1 : (1 <= N.of_nat (sizeofT T))%N) by lia.
  generalize dependent (N.of_nat (sizeofT T)). intros s Hs H1.
  div_lia.
Qed.

Lemma serializeCompact_length_le_witness :
  (length (serializeCompact 300) <= (bitWidth uint16 + 6) / 7)%nat.
Proof.
  apply (serializeCompact_length_le uint16 300); [simpl; lia|cbv; congruence].
Defined.

Lemma deserializeCompactN_app (T : IntType) (xs : list N) (m : nat) (rest : Bytes) :
  Forall (fun x => (Z.of_N x <= maxValue T)%Z) xs ->
  deserializeCompactN T (length xs + m) (flat_map serializeCompact xs ++ rest) =
  ' (r, ys) <- deserializeCompactN T m rest ;; Ok (r, xs ++ ys).
Proof.
  induction 1 as [|x xs Hx Hxs IH].
  - cbn [length Nat.add flat_map app].
    destruct (deserializeCompactN T m rest) as [[r ys]|e]; reflexivity.
  - cbn [length Nat.add flat_map deserializeCompactN].
    rewrite <- app_assoc, deserializeCompact_serializeCompact by exact Hx.
    cbn [bindResult]. rewrite IH.
    destruct (deserializeCompactN T m rest) as [[r ys]|e]; reflexivity.
Qed.

(** ** X8 *)

(** X8: a compact range whose length prefix announces more elements than the
    input holds fails with [Truncated] once the input runs out. *)
Theorem deserializeCompactRange_count_too_large (T : IntType) (xs : list N) (k : nat) :
  Forall (fun x => (Z.of_N x <= maxValue T)%Z) xs ->
  (length xs < k)%nat -> (Z.of_nat k <= maxValue size_t)%Z ->
  deserializeCompactRange T (serializeCompact (N.of_nat k) ++ flat_map serializeCompact xs)
  = Fail Truncated.
Proof.
  intros Hxs Hk Hmax. unfold deserializeCompactRange.
  rewrite deserializeCompact_serializeCompact by (rewrite nat_N_Z; exact Hmax).
  cbn [bindResult]. rewrite Nat2N.id.
  replace k with (length xs + S (k - length xs - 1))%nat by lia.
  rewrite <- (app_nil_r (flat_map serializeCompact xs)).
  rewrite deserializeCompactN_app by exact Hxs. reflexivity.
Qed.

Lemma deserializeCompactRange_count_too_large_witness :
  deserializeCompactRange uint32 (serializeCompact 3 ++ flat_map serializeCompact [1; 300]%N)
  = Fail Truncated.
Proof.
  apply (deserializeCompactRange_count_too_large uint32 [1; 300]%N 3).
  - repeat constructor; cbv; congruence.
  - simpl; lia.
  - cbv; congruence.
Defined.
